(** * ElementGeometry: integration-point traversal and element services

    A shallow embedding of [src/oofemlib/elementgeometry.h] (class
    [oofem::ElementGeometry]) together with the properties of its
    integration-point traversal, its inline default services and the
    partition-exchange services it declares.

    Conventions.
    - A C++ [int] is a [Z].  The loop counters of the traversal stay below a
      bound that is itself an [int], so no wrap-around can occur there.
    - A C++ [double] is a primitive IEEE 754 binary64 float.
    - A method that can stop the run ([OOFEM_ERROR]) or read outside an array
      returns a [Result]; a method that mutates the receiver returns the new
      receiver next to its value.
    - Virtual methods are the fields of [ElementClass]; [ElementGeometry_base]
      holds the bodies written in the header. *)

From Stdlib Require Import ZArith.
From Stdlib Require Import Floats.PrimFloat.
From stdpp Require Import base tactics option list list_numbers sorting strings.

Open Scope Z_scope.

(** ** Results of fallible code *)

Inductive Failure : Type :=
  | OofemError (msg : string)   (* OOFEM_ERROR: reported, the run stops *)
  | OutOfBounds (i : Z).        (* a read outside an array *)

Inductive Result (A : Type) : Type :=
  | Returned (a : A)
  | Failed (why : Failure).
Arguments Returned {A} a.
Arguments Failed {A} why.

Global Instance Result_ret : MRet Result := λ A a, Returned a.
Global Instance Result_bind : MBind Result := λ A B k m,
  match m with
  | Returned a => k a
  | Failed why => Failed why
  end.

(** [arr [ i ]] for a C array of known extent. *)
Definition array_at {A : Type} (arr : list A) (i : Z) : Result A :=
  if decide (0 ≤ i)
  then match arr !! Z.to_nat i with
       | Some a => Returned a
       | None => Failed (OutOfBounds i)
       end
  else Failed (OutOfBounds i).

(** [for ( i = 0; i < n; i++ ) body], for a body that assigns neither [i]
    nor [n]: [for_upto count i] runs the [count] remaining iterations. *)
Fixpoint for_upto {S : Type} (count : nat) (i : Z)
    (body : Z → S → Result S) (s : S) : Result S :=
  match count with
  | O => Returned s
  | Datatypes.S count' => s' ← body i s; for_upto count' (i + 1) body s'
  end.

Definition for_loop {S : Type} (n : Z) (body : Z → S → Result S) (s : S)
    : Result S :=
  for_upto (Z.to_nat n) 0 body s.

(** ** Data model *)

Definition double : Set := PrimFloat.float.
Definition FloatArray : Type := list double.
Definition FloatMatrix : Type := list (list double).
Definition IntArray : Type := list Z.

Inductive elementParallelMode : Type :=
  | Element_local
  | Element_remote.

Section ElementGeometry.

(** The material-state history attached to an integration point is owned by
    the material layer and opaque here. *)
Context {MaterialStatus : Type}.

(** Modelled from the spec: class [GaussPoint] (gausspoint.h is not part of
    the sources): "local coordinates, scalar weight, and a reference to
    material-state history". *)
Record GaussPoint : Type := mkGaussPoint {
  gp_coordinates : FloatArray;
  gp_weight : double;
  gp_materialStatus : MaterialStatus
}.

(** Modelled from the spec: class [IntegrationRule] (integrationrule.h is not
    part of the sources): it "owns an ordered sequence of GaussPoints", whose
    length [giveNumberOfIntegrationPoints] reports and which
    [getIntegrationPoint] indexes from 0. *)
Record IntegrationRule : Type := mkIntegrationRule {
  gaussPointArray : list GaussPoint
}.

Definition giveNumberOfIntegrationPoints (r : IntegrationRule) : Z :=
  Z.of_nat (length (gaussPointArray r)).

Definition getIntegrationPoint (r : IntegrationRule) (n : Z)
    : Result GaussPoint :=
  array_at (gaussPointArray r) n.

(** The data members of [ElementGeometry]; [number] is inherited from
    [FEMComponent]. *)
Record ElementGeometry : Type := mkElementGeometry {
  number : Z;
  numberOfDofMans : Z;
  dofManArray : IntArray;
  material : Z;
  crossSection : Z;
  activityTimeFunction : Z;
  numberOfIntegrationRules : Z;
  integrationRulesArray : list IntegrationRule;
  elemLocalCS : FloatMatrix;
  globalNumber : Z;
  numberOfGaussPoints : Z;
  parallel_mode : elementParallelMode;
  partitions : IntArray
}.

(** [numberOfIntegrationRules] is the extent of [integrationRulesArray]
    ("Number of integration rules used by receiver"). *)
Definition rules_consistent (e : ElementGeometry) : Prop :=
  numberOfIntegrationRules e = Z.of_nat (length (integrationRulesArray e)).

Global Instance rules_consistent_dec e : Decision (rules_consistent e).
Proof. unfold rules_consistent. apply _. Defined.

(** ** Integration-point traversal *)

(** [template< class T > void ipEvaluator(T *src, void (T::*f)(GaussPoint *gp))]:
    [f] acts on the object [src].  The loops read the two arrays and
    nothing else; the point handed to [f] is the one stored at [(ir, ip)]. *)
Definition ipEvaluator {T : Type} (e : ElementGeometry)
    (f : GaussPoint → T → T) (src : T) : Result T :=
  for_loop (numberOfIntegrationRules e) (λ ir src,
    rule ← array_at (integrationRulesArray e) ir;
    let nip := giveNumberOfIntegrationPoints rule in
    for_loop nip (λ ip src,
      rule ← array_at (integrationRulesArray e) ir;
      gp ← getIntegrationPoint rule ip;
      Returned (f gp src)) src) src.

(** [template< class T, class S > void ipEvaluator(T *src,
    void (T::*f)(GaussPoint *, S &), S &_val)]: [f] acts on [src] and on
    the accumulator [_val]. *)
Definition ipEvaluator_val {T S : Type} (e : ElementGeometry)
    (f : GaussPoint → T * S → T * S) (src : T) (_val : S) : Result (T * S) :=
  for_loop (numberOfIntegrationRules e) (λ ir st,
    rule ← array_at (integrationRulesArray e) ir;
    let nip := giveNumberOfIntegrationPoints rule in
    for_loop nip (λ ip st,
      rule ← array_at (integrationRulesArray e) ir;
      gp ← getIntegrationPoint rule ip;
      Returned (f gp st)) st) (src, _val).

(** The traversal as the specification words it: every point of every rule,
    rule after rule, point after point. *)
Definition integrationPoints (e : ElementGeometry) : list GaussPoint :=
  concat (gaussPointArray <$> integrationRulesArray e).

(** The positions [(ir, ip)] of one rule, as the inner loop counts them. *)
Definition rulePositions (rules : list IntegrationRule) (ir : Z)
    : list (Z * Z) :=
  match array_at rules ir with
  | Returned rule => (λ ip, (ir, ip)) <$> seqZ 0 (giveNumberOfIntegrationPoints rule)
  | Failed _ => []
  end.

(** The positions in the order of the two nested loops. *)
Definition visitOrder (e : ElementGeometry) : list (Z * Z) :=
  ir ← seqZ 0 (numberOfIntegrationRules e);
  rulePositions (integrationRulesArray e) ir.

(** The point stored at a position. *)
Definition pointAt (e : ElementGeometry) (pos : Z * Z) : Result GaussPoint :=
  rule ← array_at (integrationRulesArray e) pos.1;
  getIntegrationPoint rule pos.2.

(** Positions compared as the loops advance: by rule, then by point. *)
Definition visited_before (p q : Z * Z) : Prop :=
  p.1 < q.1 ∨ (p.1 = q.1 ∧ p.2 < q.2).

(** ** Services written inline in the header *)

(** Modelled from the spec: class [TimeStep] (only forward-declared in the
    sources): a solution step and "the step's time". *)
Record TimeStep : Type := mkTimeStep {
  ts_number : Z;
  ts_targetTime : double
}.

(** [int giveNumberOfDofManagers() const { return numberOfDofMans; }] *)
Definition giveNumberOfDofManagers (e : ElementGeometry) : Z :=
  numberOfDofMans e.

(** [int giveActivityTimeFunction() { return activityTimeFunction; }] *)
Definition giveActivityTimeFunction (e : ElementGeometry) : Z :=
  activityTimeFunction e.

(** [int giveNumberOfIntegrationRules() { return this->numberOfIntegrationRules; }] *)
Definition giveNumberOfIntegrationRules (e : ElementGeometry) : Z :=
  numberOfIntegrationRules e.

(** The virtual methods with a body in the header.  A [const] method reads
    the receiver; the others may change it or stop the run.  A pointer
    result is [None] for [NULL]. *)
Class ElementClass : Type := {
  giveInternalDofManager : Z → ElementGeometry → Result (option Z);
  giveNumberOfNodes : ElementGeometry → Z;
  checkConsistency : ElementGeometry → Result (Z * ElementGeometry);
  giveDefaultIntegrationRule : ElementGeometry → Z;
  adaptiveUpdate : TimeStep → ElementGeometry → Result (Z * ElementGeometry)
}.

(** The bodies [ElementGeometry] itself gives them. *)
Global Instance ElementGeometry_base : ElementClass := {|
  (* { OOFEM_ERROR("No such DOF available on Element %d", number); return NULL; } *)
  giveInternalDofManager := λ i e,
    Failed (OofemError "No such DOF available on Element");
  (* { return numberOfDofMans; } *)
  giveNumberOfNodes := λ e, numberOfDofMans e;
  (* { return 1; } *)
  checkConsistency := λ e, Returned (1, e);
  (* { return 0; } *)
  giveDefaultIntegrationRule := λ e, 0;
  (* { return 1; } *)
  adaptiveUpdate := λ tStep e, Returned (1, e)
|}.

(** [virtual IntegrationRule *giveDefaultIntegrationRulePtr()]; the call of
    [giveDefaultIntegrationRule] is dispatched on the receiver's class. *)
Definition giveDefaultIntegrationRulePtr `{ElementClass} (e : ElementGeometry)
    : Result (option IntegrationRule) :=
  if decide (giveNumberOfIntegrationRules e = 0)
  then Returned None
  else rule ← array_at (integrationRulesArray e) (giveDefaultIntegrationRule e);
       Returned (Some rule).

(** What [giveDefaultIntegrationRulePtr] owes its caller, for a receiver of
    class [C]: a result, [NULL] exactly for a rule-less element, and
    otherwise the rule stored at the default index. *)
Definition default_rule_ptr_ok (C : ElementClass) (e : ElementGeometry)
    : Prop :=
  ∃ ptr : option IntegrationRule,
    @giveDefaultIntegrationRulePtr C e = Returned ptr ∧
    (ptr = None ↔ giveNumberOfIntegrationRules e = 0) ∧
    (giveNumberOfIntegrationRules e ≠ 0 →
     ∃ rule, ptr = Some rule ∧
             integrationRulesArray e
               !! Z.to_nat (@giveDefaultIntegrationRule C e) = Some rule).

End ElementGeometry.

Arguments GaussPoint : clear implicits.
Arguments IntegrationRule : clear implicits.
Arguments ElementGeometry : clear implicits.
Arguments ElementClass : clear implicits.

(** ** Services declared in the header and defined elsewhere

    [isActivated], [updateLocalNumbering], [giveIPValue], [packUnknowns],
    [unpackAndUpdateUnknowns] and [estimatePackSize] are declared in
    elementgeometry.h; their bodies (elementgeometry.C) and the classes they
    call are not part of the sources. *)

Section DeclaredServices.

Context {MaterialStatus : Type}.

Local Abbreviation GaussPoint := (GaussPoint MaterialStatus).
Local Abbreviation IntegrationRule := (IntegrationRule MaterialStatus).
Local Abbreviation ElementGeometry := (ElementGeometry MaterialStatus).

(** *** Activity *)

(** Modelled from the spec: the owning [Domain]'s registry of time functions
    (domain.h and the function classes are missing).  A reference resolves to
    a function of time or the lookup stops the run. *)
Record Domain : Type := mkDomain {
  giveFunction : Z → Result (double → double)
}.

(** [value == 0.] on doubles. *)
Definition is_zero (value : double) : bool := PrimFloat.eqb value 0%float.

(** Modelled from the spec: the body of [isActivated] (missing): it
    "evaluates the activity-time-function at the step's time; zero ⇒
    inactive".  The member [activityTimeFunction] is documented as "If
    defined, nonzero value indicates active receiver, zero value inactive
    element"; reference 0 stands for "not defined" (the input key
    [activityltf] is optional). *)
Definition isActivated (d : Domain) (e : ElementGeometry) (tStep : TimeStep)
    : Result bool :=
  if decide (giveActivityTimeFunction e = 0)
  then Returned true
  else f ← giveFunction d (giveActivityTimeFunction e);
       Returned (negb (is_zero (f (ts_targetTime tStep)))).

(** *** Renumbering *)

(** Modelled from the spec: the kinds of stored reference the renumbering
    function is asked about (entityrenumberingscheme.h is missing): the spec
    lists "dof-manager indices, global number, partition ids". *)
Inductive EntityReference : Type :=
  | DofManagerIndex
  | GlobalNumber
  | PartitionId.

(** Modelled from the spec: [EntityRenumberingFunctor], "a caller-supplied
    index-remapping function": old number and kind to new number. *)
Definition EntityRenumberingFunctor : Type := Z → EntityReference → Z.

(** Modelled from the spec: the body of [updateLocalNumbering] (missing): it
    "applies a caller-supplied index-remapping function to every stored
    entity reference (dof-manager indices, global number, partition ids)". *)
Definition updateLocalNumbering (f : EntityRenumberingFunctor)
    (e : ElementGeometry) : ElementGeometry :=
  {| number := number e;
     numberOfDofMans := numberOfDofMans e;
     dofManArray := (λ dnum, f dnum DofManagerIndex) <$> dofManArray e;
     material := material e;
     crossSection := crossSection e;
     activityTimeFunction := activityTimeFunction e;
     numberOfIntegrationRules := numberOfIntegrationRules e;
     integrationRulesArray := integrationRulesArray e;
     elemLocalCS := elemLocalCS e;
     globalNumber := f (globalNumber e) GlobalNumber;
     numberOfGaussPoints := numberOfGaussPoints e;
     parallel_mode := parallel_mode e;
     partitions := (λ p, f p PartitionId) <$> partitions e |}.

(** *** Collaborators *)

(** [InternalStateType]: an enumerator of internalstatetype.h, by value. *)
Definition InternalStateType : Type := Z.

(** Modelled from the spec: "a communication buffer behaves as a blocking,
    ordered byte channel" ([CommunicationBuffer] is only forward-declared):
    the bytes not yet read, oldest first.  Packing appends, unpacking reads
    from the front. *)
Definition CommunicationBuffer : Type := list Byte.byte.

(** Modelled from the spec: the cross-section/material collaborator
    (crosssection.h and material.h are missing), which "suppl[ies] all
    physically meaningful values (stress/strain, per-point volume weight,
    serialized payload content)".  For one integration point it
    - evaluates a quantity, or has none to give ([cs_giveIPValue]);
    - produces the bytes to exchange ([cs_packUnknowns]);
    - reads its bytes back and updates the point, or reports a desync
      ([cs_unpackAndUpdateUnknowns]);
    - estimates the size of what it packs ([cs_estimatePackSize]). *)
Record CrossSection : Type := mkCrossSection {
  cs_giveIPValue : GaussPoint → InternalStateType → TimeStep → option FloatArray;
  cs_packUnknowns : TimeStep → GaussPoint → list Byte.byte;
  cs_unpackAndUpdateUnknowns :
    TimeStep → GaussPoint → CommunicationBuffer
    → Result (GaussPoint * CommunicationBuffer);
  cs_estimatePackSize : GaussPoint → Z
}.

(** *** Integration-point values *)

(** Modelled from the spec: the body of [giveIPValue] (missing): it
    "delegates the physical evaluation to the cross-section/material
    collaborators; returns an empty result and a "not supported" signal
    rather than failing".  The header: "answer: Contain corresponding
    integration point value, zero sized if not available", "return Nonzero
    if o.k, zero otherwise".  [answer] is the caller's array as it comes
    in; the result is the array as it goes out, with the return code. *)
Definition giveIPValue (cs : CrossSection) (e : ElementGeometry)
    (answer : FloatArray) (gp : GaussPoint) (type : InternalStateType)
    (tStep : TimeStep) : Result (FloatArray * Z) :=
  match cs_giveIPValue cs gp type tStep with
  | Some value => Returned (value, 1)
  | None => Returned ([], 0)
  end.

(** *** Partition synchronizer *)

(** Modelled from the spec: the body of [packUnknowns] (missing): it
    "serializes, in the fixed traversal order, the material-state payload of
    every integration point (content itself produced by the
    cross-section/material collaborator ...)", the traversal being "the sole
    mechanism by which ... serialization ... iterate[s] points".  The
    result is the buffer after the call; the spec does not describe the
    [int] the C++ method returns. *)
Definition packUnknowns (cs : CrossSection) (e : ElementGeometry)
    (buff : CommunicationBuffer) (tStep : TimeStep)
    : Result CommunicationBuffer :=
  st ← ipEvaluator_val e
         (λ gp st, (st.1, st.2 ++ cs_packUnknowns st.1 tStep gp)) cs buff;
  Returned st.2.


(** The points of one rule, in order: each is read back and overwritten. *)
Fixpoint unpackPoints (cs : CrossSection) (tStep : TimeStep)
    (gps : list GaussPoint) (buff : CommunicationBuffer)
    : Result (list GaussPoint * CommunicationBuffer) :=
  match gps with
  | [] => Returned ([], buff)
  | gp :: gps =>
      r ← cs_unpackAndUpdateUnknowns cs tStep gp buff;
      rs ← unpackPoints cs tStep gps r.2;
      Returned (r.1 :: rs.1, rs.2)
  end.

(** The rules, in order. *)
Fixpoint unpackRules (cs : CrossSection) (tStep : TimeStep)
    (rules : list IntegrationRule) (buff : CommunicationBuffer)
    : Result (list IntegrationRule * CommunicationBuffer) :=
  match rules with
  | [] => Returned ([], buff)
  | rule :: rules =>
      r ← unpackPoints cs tStep (gaussPointArray rule) buff;
      rs ← unpackRules cs tStep rules r.2;
      Returned ({| gaussPointArray := r.1 |} :: rs.1, rs.2)
  end.

(** Modelled from the spec: the body of [unpackAndUpdateUnknowns] (missing):
    it "deserializes in the identical order and overwrites the corresponding
    points' state on the receiving side"; a desync reported by the
    collaborator is fatal.  The result is the receiver and the buffer after
    the call. *)
Definition unpackAndUpdateUnknowns (cs : CrossSection) (e : ElementGeometry)
    (buff : CommunicationBuffer) (tStep : TimeStep)
    : Result (ElementGeometry * CommunicationBuffer) :=
  r ← unpackRules cs tStep (integrationRulesArray e) buff;
  Returned
    ({| number := number e;
        numberOfDofMans := numberOfDofMans e;
        dofManArray := dofManArray e;
        material := material e;
        crossSection := crossSection e;
        activityTimeFunction := activityTimeFunction e;
        numberOfIntegrationRules := numberOfIntegrationRules e;
        integrationRulesArray := r.1;
        elemLocalCS := elemLocalCS e;
        globalNumber := globalNumber e;
        numberOfGaussPoints := numberOfGaussPoints e;
        parallel_mode := parallel_mode e;
        partitions := partitions e |}, r.2).

(** The per-integration-point state of an element, rule by rule. *)
Definition pointStates (e : ElementGeometry) : list (list MaterialStatus) :=
  (λ rule, gp_materialStatus <$> gaussPointArray rule) <$> integrationRulesArray e.

(** A mirror is structurally identical: as many rules, each with as many
    points. *)
Definition same_structure (e mirror : ElementGeometry) : Prop :=
  numberOfIntegrationRules e = numberOfIntegrationRules mirror ∧
  Forall2 (λ r r', length (gaussPointArray r) = length (gaussPointArray r'))
          (integrationRulesArray e) (integrationRulesArray mirror).

(** The bytes the collaborator produces for the points of an element, in
    traversal order. *)
Definition packedBytes (cs : CrossSection) (tStep : TimeStep)
    (e : ElementGeometry) : list Byte.byte :=
  concat (cs_packUnknowns cs tStep <$> integrationPoints e).

(** The part of the per-point state a collaborator exchanges, seen through
    a projection of the material state. *)
Definition exchangedStates {X : Type} (exchanged : MaterialStatus → X)
    (e : ElementGeometry) : list (list X) :=
  (λ states : list MaterialStatus, exchanged <$> states) <$> pointStates e.

(** A collaborator's contract for one step: what it packs for a point, it
    reads back in full, leaving the rest of the buffer, and the updated
    point then agrees with the packed one on the exchanged part of the
    state. *)
Definition unpack_restores {X : Type} (exchanged : MaterialStatus → X)
    (cs : CrossSection) (tStep : TimeStep) : Prop :=
  ∀ (gp gp' : GaussPoint) (rest : CommunicationBuffer),
    ∃ gp'' : GaussPoint,
      cs_unpackAndUpdateUnknowns cs tStep gp'
        (cs_packUnknowns cs tStep gp ++ rest) = Returned (gp'', rest)
      ∧ exchanged (gp_materialStatus gp'') = exchanged (gp_materialStatus gp).

End DeclaredServices.

Arguments CrossSection : clear implicits.

(** ** Concrete elements and collaborators

    A point whose whole material state is one byte, two collaborators for
    it, and a two-rule element with its mirror on another partition. *)

Definition byte_point (status : Byte.byte) : GaussPoint Byte.byte :=
  {| gp_coordinates := [0.5%float; 0.5%float];
     gp_weight := 1%float;
     gp_materialStatus := status |}.

(** A collaborator that exchanges the whole state of a point. *)
Definition whole_state_cs : CrossSection Byte.byte :=
  {| cs_giveIPValue := λ gp type tStep,
       if decide (type = 1) then Some [gp_weight gp] else None;
     cs_packUnknowns := λ tStep gp, [gp_materialStatus gp];
     cs_unpackAndUpdateUnknowns := λ tStep gp buff,
       match buff with
       | b :: rest =>
           Returned ({| gp_coordinates := gp_coordinates gp;
                        gp_weight := gp_weight gp;
                        gp_materialStatus := b |}, rest)
       | [] => Failed (OofemError "communication buffer exhausted")
       end;
     cs_estimatePackSize := λ gp, 1 |}.

(** A material of "local" response: "no data are exchanged" (header, on
    [packUnknowns]). *)
Definition local_response_cs : CrossSection Byte.byte :=
  {| cs_giveIPValue := λ gp type tStep, None;
     cs_packUnknowns := λ tStep gp, [];
     cs_unpackAndUpdateUnknowns := λ tStep gp buff, Returned (gp, buff);
     cs_estimatePackSize := λ gp, 0 |}.


Definition byte_element (statuses : list (list Byte.byte))
    : ElementGeometry Byte.byte :=
  {| number := 1;
     numberOfDofMans := 3;
     dofManArray := [4; 7; 9];
     material := 1;
     crossSection := 1;
     activityTimeFunction := 2;
     numberOfIntegrationRules := Z.of_nat (length statuses);
     integrationRulesArray :=
       (λ rule, {| gaussPointArray := byte_point <$> rule |}) <$> statuses;
     elemLocalCS := [];
     globalNumber := 17;
     numberOfGaussPoints := 3;
     parallel_mode := Element_local;
     partitions := [0; 1] |}.

Definition owner_element : ElementGeometry Byte.byte :=
  byte_element [[Byte.x0a; Byte.x0b]; [Byte.x0c]].

Definition mirror_element : ElementGeometry Byte.byte :=
  byte_element [[Byte.x00; Byte.x00]; [Byte.x00]].

(** The renumbering that keeps every number. *)
Definition identity_renumbering : EntityRenumberingFunctor := λ n kind, n.

Definition step_one : TimeStep :=
  {| ts_number := 1; ts_targetTime := 1%float |}.

Definition step_three : TimeStep :=
  {| ts_number := 3; ts_targetTime := 3%float |}.

(** An element like [owner_element] with no activity-time-function. *)
Definition unswitched_element : ElementGeometry Byte.byte :=
  {| number := 2;
     numberOfDofMans := 3;
     dofManArray := [4; 7; 9];
     material := 1;
     crossSection := 1;
     activityTimeFunction := 0;
     numberOfIntegrationRules := 1;
     integrationRulesArray := [{| gaussPointArray := [byte_point Byte.x0a] |}];
     elemLocalCS := [];
     globalNumber := 18;
     numberOfGaussPoints := 1;
     parallel_mode := Element_local;
     partitions := [] |}.

(** A domain whose time function 1 is constantly one and whose time function
    2 switches off from time 2 on. *)
Definition example_domain : Domain :=
  {| giveFunction := λ n,
       if decide (n = 1) then Returned (λ t, 1%float)
       else if decide (n = 2)
            then Returned (λ t, if PrimFloat.ltb t 2%float then 1%float else 0%float)
            else Failed (OofemError "undefined function") |}.

(** ** Access to a rule by index *)

Section AccessServices.

Context {MaterialStatus : Type}.

Local Abbreviation IntegrationRule := (IntegrationRule MaterialStatus).
Local Abbreviation ElementGeometry := (ElementGeometry MaterialStatus).

(** [virtual IntegrationRule *giveIntegrationRule(int i)
    { return integrationRulesArray [ i ]; }] *)
Definition giveIntegrationRule (e : ElementGeometry) (i : Z)
    : Result IntegrationRule :=
  array_at (integrationRulesArray e) i.

(** *** Elements derived from a given one *)

(** The element without its point-less rules. *)
Definition withoutEmptyRules (e : ElementGeometry) : ElementGeometry :=
  let rules :=
    filter (λ rule, 0 < giveNumberOfIntegrationPoints rule)
           (integrationRulesArray e) in
  {| number := number e;
     numberOfDofMans := numberOfDofMans e;
     dofManArray := dofManArray e;
     material := material e;
     crossSection := crossSection e;
     activityTimeFunction := activityTimeFunction e;
     numberOfIntegrationRules := Z.of_nat (length rules);
     integrationRulesArray := rules;
     elemLocalCS := elemLocalCS e;
     globalNumber := globalNumber e;
     numberOfGaussPoints := numberOfGaussPoints e;
     parallel_mode := parallel_mode e;
     partitions := partitions e |}.

(** The points of the rules the count covers: the first
    [numberOfIntegrationRules] rules of the array. *)
Definition countedPoints (e : ElementGeometry)
    : list (GaussPoint MaterialStatus) :=
  concat (gaussPointArray
            <$> take (Z.to_nat (numberOfIntegrationRules e))
                     (integrationRulesArray e)).

End AccessServices.

(** An element with a rule array but a count of a single rule, one with a
    count beyond its array, and one with a point-less rule between two
    others. *)
Definition with_rule_count (n : Z) (e : ElementGeometry Byte.byte)
    : ElementGeometry Byte.byte :=
  {| number := number e;
     numberOfDofMans := numberOfDofMans e;
     dofManArray := dofManArray e;
     material := material e;
     crossSection := crossSection e;
     activityTimeFunction := activityTimeFunction e;
     numberOfIntegrationRules := n;
     integrationRulesArray := integrationRulesArray e;
     elemLocalCS := elemLocalCS e;
     globalNumber := globalNumber e;
     numberOfGaussPoints := numberOfGaussPoints e;
     parallel_mode := parallel_mode e;
     partitions := partitions e |}.

Definition sparse_element : ElementGeometry Byte.byte :=
  byte_element [[Byte.x0a]; []; [Byte.x0b; Byte.x0c]].

(** The operation that logs the state of the point it is handed. *)
Definition log_state (gp : GaussPoint Byte.byte) (log : list Byte.byte)
    : list Byte.byte :=
  log ++ [gp_materialStatus gp].

(** * Properties *)

(** ** Loops over arrays *)

Section Loops.

Context {A S : Type}.

Lemma array_at_lookup (arr : list A) (i : nat) (a : A) :
  arr !! i = Some a → array_at arr (Z.of_nat i) = Returned a.
Proof.
  intros Hi. unfold array_at.
  destruct (decide (0 ≤ Z.of_nat i)) as [_|]; [|lia].
  by rewrite Nat2Z.id, Hi.
Qed.

Lemma array_at_Returned (arr : list A) (i : Z) (a : A) :
  array_at arr i = Returned a ↔ 0 ≤ i ∧ arr !! Z.to_nat i = Some a.
Proof.
  unfold array_at. destruct (decide (0 ≤ i)) as [Hi|Hi].
  - destruct (arr !! Z.to_nat i) as [a'|]; split.
    + intros [= ->]. done.
    + intros [_ [= ->]]. done.
    + intros [=].
    + intros [_ [=]].
  - split; [intros [=] | intros [? _]; lia].
Qed.

(** A counted loop whose body, at index [i], applies [step] to the [i]-th
    element of an array folds [step] over the array. *)
Lemma for_upto_array (arr : list A) (body : Z → S → Result S)
    (step : S → A → S) :
  (∀ i a s, arr !! i = Some a → body (Z.of_nat i) s = Returned (step s a)) →
  ∀ count i s, (i + count)%nat = length arr →
    for_upto count (Z.of_nat i) body s = Returned (foldl step s (drop i arr)).
Proof.
  intros Hbody count. induction count as [|count IH]; intros i s Hlen.
  - simpl. by rewrite drop_ge by lia.
  - destruct (lookup_lt_is_Some_2 arr i) as [a Ha]; [lia|].
    rewrite (drop_S _ _ _ Ha). simpl.
    rewrite (Hbody _ _ _ Ha). simpl.
    replace (Z.of_nat i + 1) with (Z.of_nat (Datatypes.S i)) by lia.
    apply IH. lia.
Qed.

Lemma for_loop_array (arr : list A) (body : Z → S → Result S)
    (step : S → A → S) (s : S) :
  (∀ i a s, arr !! i = Some a → body (Z.of_nat i) s = Returned (step s a)) →
  for_loop (Z.of_nat (length arr)) body s = Returned (foldl step s arr).
Proof.
  intros Hbody. unfold for_loop. rewrite Nat2Z.id.
  apply (for_upto_array arr body step Hbody (length arr) 0%nat). lia.
Qed.

End Loops.

Lemma foldl_concat {A B : Type} (f : A → B → A) (ls : list (list B)) (a : A) :
  foldl (λ a l, foldl f a l) a ls = foldl f a (concat ls).
Proof.
  revert a. induction ls as [|l ls IH]; intros a; simpl; [done|].
  by rewrite foldl_app, IH.
Qed.

(** ** The traversal *)

Section Traversal.

Context {MaterialStatus : Type}.

Local Abbreviation GaussPoint := (GaussPoint MaterialStatus).
Local Abbreviation IntegrationRule := (IntegrationRule MaterialStatus).
Local Abbreviation ElementGeometry := (ElementGeometry MaterialStatus).

(** The inner loop of [ipEvaluator], over the points of the rule at [ir]. *)
Lemma points_loop {T : Type} (rules : list IntegrationRule) (ir : nat)
    (rule : IntegrationRule) (f : GaussPoint → T → T) (src : T) :
  rules !! ir = Some rule →
  for_loop (giveNumberOfIntegrationPoints rule) (λ ip src,
    rule ← array_at rules (Z.of_nat ir);
    gp ← getIntegrationPoint rule ip;
    Returned (f gp src)) src
  = Returned (foldl (λ src gp, f gp src) src (gaussPointArray rule)).
Proof.
  intros Hrule. unfold giveNumberOfIntegrationPoints.
  apply (for_loop_array (gaussPointArray rule)).
  intros ip gp s Hgp.
  rewrite (array_at_lookup _ _ _ Hrule). simpl.
  unfold getIntegrationPoint. by rewrite (array_at_lookup _ _ _ Hgp).
Qed.

(** Both loops: the operation is folded over the points of the rules. *)
Lemma rules_loop {T : Type} (rules : list IntegrationRule)
    (f : GaussPoint → T → T) (src : T) :
  for_loop (Z.of_nat (length rules)) (λ ir src,
    rule ← array_at rules ir;
    let nip := giveNumberOfIntegrationPoints rule in
    for_loop nip (λ ip src,
      rule ← array_at rules ir;
      gp ← getIntegrationPoint rule ip;
      Returned (f gp src)) src) src
  = Returned (foldl (λ src gp, f gp src) src (concat (gaussPointArray <$> rules))).
Proof.
  rewrite <- foldl_concat, foldl_fmap.
  apply (for_loop_array rules).
  intros ir rule s Hrule.
  rewrite <- (points_loop rules ir rule f s Hrule).
  by rewrite (array_at_lookup _ _ _ Hrule).
Qed.

Lemma ipEvaluator_fold {T : Type} (e : ElementGeometry)
    (f : GaussPoint → T → T) (src : T) :
  rules_consistent e →
  ipEvaluator e f src
  = Returned (foldl (λ src gp, f gp src) src (integrationPoints e)).
Proof.
  intros He. unfold ipEvaluator, integrationPoints. rewrite He.
  apply rules_loop.
Qed.

Lemma ipEvaluator_val_fold {T S : Type} (e : ElementGeometry)
    (f : GaussPoint → T * S → T * S) (src : T) (_val : S) :
  rules_consistent e →
  ipEvaluator_val e f src _val
  = Returned (foldl (λ st gp, f gp st) (src, _val) (integrationPoints e)).
Proof.
  intros He. unfold ipEvaluator_val, integrationPoints. rewrite He.
  apply rules_loop.
Qed.

(** *** The order of the visit *)

Lemma seqZ_sorted (m n : Z) : StronglySorted Z.lt (seqZ m n).
Proof.
  unfold seqZ. apply (StronglySorted_fmap _ lt); [intros x y; lia|].
  generalize 0%nat. induction (Z.to_nat n) as [|k IH]; intros start; simpl.
  - constructor.
  - constructor; [apply IH|]. apply Forall_seq. intros j Hj. lia.
Qed.

Lemma rulePositions_elem (rules : list IntegrationRule) (ir : Z) (p : Z * Z) :
  p ∈ rulePositions rules ir ↔
  p.1 = ir ∧ ∃ rule, array_at rules ir = Returned rule ∧
                     0 ≤ p.2 < giveNumberOfIntegrationPoints rule.
Proof.
  unfold rulePositions. destruct (array_at rules ir) as [rule|why].
  - rewrite list_elem_of_fmap. split.
    + intros (ip & -> & Hip). apply elem_of_seqZ in Hip. simpl.
      split; [done|]. exists rule. split; [done|lia].
    + intros (Hir & rule' & [= <-] & Hip). exists p.2. split.
      * destruct p; simpl in *; congruence.
      * apply elem_of_seqZ. lia.
  - split; [intros []%elem_of_nil | intros (_ & rule & [=] & _)].
Qed.

Lemma rulePositions_sorted (rules : list IntegrationRule) (ir : Z) :
  StronglySorted visited_before (rulePositions rules ir).
Proof.
  unfold rulePositions. destruct (array_at rules ir) as [rule|why].
  - apply (StronglySorted_fmap _ Z.lt); [|apply seqZ_sorted].
    intros x y Hxy. right. simpl. done.
  - constructor.
Qed.

Lemma positions_sorted (rules : list IntegrationRule) (irs : list Z) :
  StronglySorted Z.lt irs →
  StronglySorted visited_before (irs ≫= rulePositions rules).
Proof.
  induction 1 as [|ir irs _ IH Hlt]; [constructor|].
  rewrite bind_cons. apply StronglySorted_app_2; [|apply rulePositions_sorted|done].
  intros p q Hp Hq. left.
  apply rulePositions_elem in Hp as [-> _].
  apply list_elem_of_bind in Hq as (ir' & Hq & Hir').
  apply rulePositions_elem in Hq as [-> _].
  rewrite Forall_forall in Hlt. by apply Hlt.
Qed.

Lemma visited_before_irrefl (p : Z * Z) : ¬ visited_before p p.
Proof. unfold visited_before. lia. Qed.

Lemma sorted_NoDup (ps : list (Z * Z)) :
  StronglySorted visited_before ps → NoDup ps.
Proof.
  induction 1 as [|p ps _ IH Hall]; constructor; [|done].
  intros Hin. rewrite Forall_forall in Hall.
  exact (visited_before_irrefl p (Hall p Hin)).
Qed.

(** The points of one rule sit at its positions, in order. *)
Lemma rule_points_at (gps : list GaussPoint) :
  Forall2 (λ ip gp, array_at gps ip = Returned gp)
          (seqZ 0 (Z.of_nat (length gps))) gps.
Proof.
  apply Forall2_same_length_lookup_2.
  - rewrite length_seqZ. lia.
  - intros i ip gp Hip Hgp. apply lookup_seqZ in Hip as [-> _].
    by apply array_at_lookup.
Qed.

Lemma points_at_positions (pre rules : list IntegrationRule) :
  Forall2 (λ pos gp,
             (rule ← array_at (pre ++ rules) pos.1;
              getIntegrationPoint rule pos.2) = Returned gp)
          (seqZ (Z.of_nat (length pre)) (Z.of_nat (length rules))
             ≫= rulePositions (pre ++ rules))
          (concat (gaussPointArray <$> rules)).
Proof.
  revert pre. induction rules as [|rule rules IH]; intros pre.
  - constructor.
  - rewrite seqZ_cons by (simpl; lia). rewrite bind_cons. csimpl.
    assert (array_at (pre ++ rule :: rules) (Z.of_nat (length pre))
            = Returned rule) as Hrule.
    { apply array_at_lookup, list_lookup_middle. done. }
    apply Forall2_app.
    + unfold rulePositions. rewrite Hrule.
      apply Forall2_fmap_l. simpl.
      eapply Forall2_impl; [apply rule_points_at|].
      intros ip gp Hgp. simpl. by rewrite Hrule.
    + specialize (IH (pre ++ [rule])).
      rewrite <- app_assoc in IH. simpl in IH.
      rewrite length_app in IH. simpl in IH.
      replace (Z.succ (Z.of_nat (length pre)))
        with (Z.of_nat (length pre + 1)) by lia.
      replace (Z.pred (Z.of_nat (Datatypes.S (length rules))))
        with (Z.of_nat (length rules)) by lia.
      exact IH.
Qed.

(** C1.  [ipEvaluator], in its plain form and in the form that threads an
    accumulator, applies the caller's operation to the points of the element
    one after the other in the order of [integrationPoints]: the points of
    rule 0, then those of rule 1, up to rule [numberOfIntegrationRules - 1],
    each rule from point 0 to its last point.  The positions visited are
    exactly the valid pairs (rule index, point index), each once, in
    increasing rule-then-point order, and the point handed over at each
    visit is the one stored at that position. *)
Theorem ipEvaluator_visits_all_points_once_in_order {T S : Type}
    (e : ElementGeometry) (f : GaussPoint → T → T)
    (g : GaussPoint → T * S → T * S) (src : T) (_val : S) :
  rules_consistent e →
  ipEvaluator e f src
    = Returned (foldl (λ src gp, f gp src) src (integrationPoints e))
  ∧ ipEvaluator_val e g src _val
    = Returned (foldl (λ st gp, g gp st) (src, _val) (integrationPoints e))
  ∧ Forall2 (λ pos gp, pointAt e pos = Returned gp)
            (visitOrder e) (integrationPoints e)
  ∧ (∀ ir ip, (ir, ip) ∈ visitOrder e ↔
       0 ≤ ir < numberOfIntegrationRules e ∧
       ∃ rule, array_at (integrationRulesArray e) ir = Returned rule ∧
               0 ≤ ip < giveNumberOfIntegrationPoints rule)
  ∧ NoDup (visitOrder e)
  ∧ StronglySorted visited_before (visitOrder e).
Proof.
  intros He.
  assert (StronglySorted visited_before (visitOrder e)) as Hsorted.
  { apply positions_sorted, seqZ_sorted. }
  split; [by apply ipEvaluator_fold|].
  split; [by apply ipEvaluator_val_fold|].
  split; [|split; [|split; [by apply sorted_NoDup|done]]].
  - unfold visitOrder, integrationPoints, pointAt. rewrite He.
    apply (points_at_positions [] (integrationRulesArray e)).
  - intros ir ip. unfold visitOrder.
    rewrite list_elem_of_bind. split.
    + intros (ir' & Hp & Hir'). apply elem_of_seqZ in Hir'.
      apply rulePositions_elem in Hp as (Heq & rule & Hrule & Hip).
      simpl in *. subst ir'. split; [lia|by exists rule].
    + intros (Hir & rule & Hrule & Hip). exists ir. split.
      * apply rulePositions_elem. split; [done|by exists rule].
      * apply elem_of_seqZ. lia.
Qed.

End Traversal.

(** Without the agreement of count and array the traversal leaves the
    array: here after the last rule. *)
Example ipEvaluator_count_beyond_array :
  ipEvaluator
    {| number := 1; numberOfDofMans := 0; dofManArray := [];
       material := 1; crossSection := 1; activityTimeFunction := 0;
       numberOfIntegrationRules := 2;
       integrationRulesArray :=
         [{| gaussPointArray := [byte_point Byte.x0a] |}];
       elemLocalCS := []; globalNumber := 1; numberOfGaussPoints := 1;
       parallel_mode := Element_local; partitions := [] |}
    (λ gp log, log ++ [gp_materialStatus gp]) []
  = Failed (OutOfBounds 1).
Proof. reflexivity. Qed.

(** A traversal that logs the state of each point it is handed. *)
Lemma ipEvaluator_visits_witness :
  rules_consistent owner_element ∧
  ipEvaluator owner_element (λ gp log, log ++ [gp_materialStatus gp]) []
    = Returned [Byte.x0a; Byte.x0b; Byte.x0c] ∧
  visitOrder owner_element = [(0, 0); (0, 1); (1, 0)].
Proof.
  assert (rules_consistent owner_element) as He by reflexivity.
  split; [exact He|].
  split; [|reflexivity].
  rewrite (proj1 (ipEvaluator_visits_all_points_once_in_order
                    (S := unit) owner_element
                    (λ gp log, log ++ [gp_materialStatus gp])
                    (λ gp st, st) [] () He)).
  reflexivity.
Defined.

(** ** Services written inline in the header *)

Section InlineServices.

Context {MaterialStatus : Type}.

Local Abbreviation IntegrationRule := (IntegrationRule MaterialStatus).
Local Abbreviation ElementGeometry := (ElementGeometry MaterialStatus).
Local Abbreviation ElementClass := (ElementClass MaterialStatus).

Lemma default_rule_ptr_in_range (C : ElementClass) (e : ElementGeometry) :
  rules_consistent e →
  (giveNumberOfIntegrationRules e ≠ 0 →
   0 ≤ @giveDefaultIntegrationRule _ C e < giveNumberOfIntegrationRules e) →
  default_rule_ptr_ok C e.
Proof.
  intros He Hidx. unfold default_rule_ptr_ok, giveDefaultIntegrationRulePtr.
  destruct (decide (giveNumberOfIntegrationRules e = 0)) as [Hn|Hn].
  - exists None. split; [done|]. split; [done|]. intros; done.
  - specialize (Hidx Hn). unfold giveNumberOfIntegrationRules in *.
    destruct (lookup_lt_is_Some_2 (integrationRulesArray e)
                (Z.to_nat (@giveDefaultIntegrationRule _ C e)))
      as [rule Hrule]; [rewrite He in Hidx; lia|].
    exists (Some rule).
    rewrite (proj2 (array_at_Returned _ _ rule)) by (split; [lia|done]).
    split; [done|]. split; [split; [intros [=]|done]|].
    intros _. by exists rule.
Qed.

(** C9.  On an element whose rule count is the extent of its rule array,
    [giveDefaultIntegrationRulePtr] returns [NULL] if and only if
    [giveNumberOfIntegrationRules()] is zero, and otherwise the rule at
    index [giveDefaultIntegrationRule()] of [integrationRulesArray]: for
    the default implementation, whose index is 0, and for every override
    whose index lies inside the array.  No read outside the array occurs. *)
Theorem giveDefaultIntegrationRulePtr_null_iff_no_rules (e : ElementGeometry) :
  rules_consistent e →
  @giveDefaultIntegrationRule _ ElementGeometry_base e = 0
  ∧ default_rule_ptr_ok ElementGeometry_base e
  ∧ ∀ C : ElementClass,
      (giveNumberOfIntegrationRules e ≠ 0 →
       0 ≤ @giveDefaultIntegrationRule _ C e < giveNumberOfIntegrationRules e) →
      default_rule_ptr_ok C e.
Proof.
  intros He. split; [done|]. split.
  - apply default_rule_ptr_in_range; [done|].
    intros Hn. simpl. unfold giveNumberOfIntegrationRules in *.
    rewrite He in *. lia.
  - intros C. by apply default_rule_ptr_in_range.
Qed.

(** C10.  In the default implementation [giveNumberOfNodes()] and
    [giveNumberOfDofManagers()] agree on every element: both return the
    stored [numberOfDofMans]. *)
Theorem giveNumberOfNodes_default_is_giveNumberOfDofManagers
    (e : ElementGeometry) :
  @giveNumberOfNodes _ ElementGeometry_base e = giveNumberOfDofManagers e
  ∧ @giveNumberOfNodes _ ElementGeometry_base e = numberOfDofMans e
  ∧ giveNumberOfDofManagers e = numberOfDofMans e.
Proof. by repeat split. Qed.

(** C6.  The default [adaptiveUpdate(tStep)] returns 1, a nonzero result,
    and leaves the element as it was, for every element and every step. *)
Theorem adaptiveUpdate_default_succeeds (tStep : TimeStep)
    (e : ElementGeometry) :
  ∃ result : Z,
    @adaptiveUpdate _ ElementGeometry_base tStep e = Returned (result, e)
    ∧ result = 1 ∧ result ≠ 0.
Proof. exists 1. by repeat split. Qed.

(** C8.  The default [checkConsistency()] does not stop the run: on every
    element it returns the integer 1, which is nonzero and so means "pass",
    and it leaves the element unchanged. *)
Theorem checkConsistency_default_passes (e : ElementGeometry) :
  (∀ why, @checkConsistency _ ElementGeometry_base e ≠ Failed why)
  ∧ ∃ result : Z,
      @checkConsistency _ ElementGeometry_base e = Returned (result, e)
      ∧ result = 1 ∧ result ≠ 0.
Proof. split; [done|]. exists 1. by repeat split. Qed.

End InlineServices.

Lemma giveDefaultIntegrationRulePtr_witness :
  rules_consistent owner_element ∧
  @giveDefaultIntegrationRulePtr _ ElementGeometry_base owner_element
    = Returned (Some {| gaussPointArray :=
                          [byte_point Byte.x0a; byte_point Byte.x0b] |}) ∧
  @giveDefaultIntegrationRulePtr _ ElementGeometry_base
     (byte_element []) = Returned None.
Proof.
  assert (rules_consistent owner_element) as He by reflexivity.
  split; [exact He|].
  pose proof (giveDefaultIntegrationRulePtr_null_iff_no_rules
                owner_element He) as (_ & (ptr & Hptr & _ & Hrule) & _).
  split; [|reflexivity].
  destruct Hrule as (rule & -> & Hlookup); [discriminate|].
  rewrite Hptr. simpl in Hlookup. congruence.
Defined.

(** ** Services declared in the header *)

Section DeclaredServicesFacts.

Context {MaterialStatus : Type}.

Local Abbreviation GaussPoint := (GaussPoint MaterialStatus).
Local Abbreviation IntegrationRule := (IntegrationRule MaterialStatus).
Local Abbreviation ElementGeometry := (ElementGeometry MaterialStatus).
Local Abbreviation CrossSection := (CrossSection MaterialStatus).

(** C4.  [isActivated(tStep)] returns false if and only if the element's
    stored activity-time-function reference is set and the function it
    names evaluates to zero at the step's time.  It returns true if and
    only if no activity-time-function is set or the function evaluates to
    a nonzero value there; in particular an element with no
    activity-time-function is active at every step.  It stops the run only
    when the reference is set and does not resolve in the domain. *)
Theorem isActivated_false_iff_function_zero (d : Domain)
    (e : ElementGeometry) (tStep : TimeStep) :
  (isActivated d e tStep = Returned false ↔
     activityTimeFunction e ≠ 0 ∧
     ∃ f, giveFunction d (activityTimeFunction e) = Returned f ∧
          is_zero (f (ts_targetTime tStep)) = true)
  ∧ (isActivated d e tStep = Returned true ↔
     activityTimeFunction e = 0 ∨
     ∃ f, giveFunction d (activityTimeFunction e) = Returned f ∧
          is_zero (f (ts_targetTime tStep)) = false)
  ∧ (activityTimeFunction e = 0 → isActivated d e tStep = Returned true)
  ∧ (∀ why, isActivated d e tStep = Failed why ↔
       activityTimeFunction e ≠ 0 ∧
       giveFunction d (activityTimeFunction e) = Failed why).
Proof.
  unfold isActivated, giveActivityTimeFunction.
  destruct (decide (activityTimeFunction e = 0)) as [Hnone|Hsome].
  - split; [|split; [|split]].
    + split; [intros [=]|intros [? _]; done].
    + split; [by left|done].
    + done.
    + intros why. split; [intros [=]|intros [? _]; done].
  - destruct (giveFunction d (activityTimeFunction e)) as [f|why']; simpl.
    + split; [|split; [|split]].
      * split.
        -- intros [= Hz]. split; [done|]. exists f. split; [done|].
           by apply negb_false_iff.
        -- intros (_ & f' & [= <-] & Hz). by rewrite Hz.
      * split.
        -- intros [= Hz]. right. exists f. split; [done|].
           by apply negb_true_iff.
        -- intros [?|(f' & [= <-] & Hz)]; [done|]. by rewrite Hz.
      * done.
      * intros why. split; [intros [=]|intros [_ [=]]].
    + split; [|split; [|split]].
      * split; [intros [=]|intros (_ & f & [=] & _)].
      * split; [intros [=]|intros [?|(f & [=] & _)]; done].
      * done.
      * intros why. split; [by intros [= ->]|by intros [_ [= ->]]].
Qed.

(** C5.  [updateLocalNumbering] with a renumbering function that maps every
    number to itself leaves the dof-manager index array, the global number
    and the partition list unchanged (and with them the whole element). *)
Theorem updateLocalNumbering_identity (f : EntityRenumberingFunctor)
    (e : ElementGeometry) :
  (∀ n kind, f n kind = n) →
  dofManArray (updateLocalNumbering f e) = dofManArray e
  ∧ globalNumber (updateLocalNumbering f e) = globalNumber e
  ∧ partitions (updateLocalNumbering f e) = partitions e
  ∧ updateLocalNumbering f e = e.
Proof.
  intros Hid.
  assert (∀ kind (ns : IntArray), (λ n, f n kind) <$> ns = ns) as Hmap.
  { intros kind ns. induction ns as [|n ns IH]; csimpl; [done|].
    by rewrite Hid, IH. }
  unfold updateLocalNumbering. simpl. rewrite !Hmap, Hid.
  by destruct e.
Qed.

(** C7.  [giveIPValue] always returns.  For a quantity the collaborators do
    not provide, the answer array comes back empty, whatever it held, with
    return code 0; the return code is nonzero exactly when the quantity is
    provided, and the answer is then the value provided. *)
Theorem giveIPValue_empty_and_zero_when_unsupported (cs : CrossSection)
    (e : ElementGeometry) (answer : FloatArray) (gp : GaussPoint)
    (type : InternalStateType) (tStep : TimeStep) :
  ∃ (answer' : FloatArray) (code : Z),
    giveIPValue cs e answer gp type tStep = Returned (answer', code)
    ∧ (cs_giveIPValue cs gp type tStep = None → answer' = [] ∧ code = 0)
    ∧ (code ≠ 0 ↔ is_Some (cs_giveIPValue cs gp type tStep))
    ∧ (∀ value, cs_giveIPValue cs gp type tStep = Some value →
                answer' = value).
Proof.
  unfold giveIPValue.
  destruct (cs_giveIPValue cs gp type tStep) as [value|].
  - exists value, 1. split; [done|]. split; [done|].
    split; [split; [by eauto|done]|]. by intros ? [= ->].
  - exists [], 0. split; [done|]. split; [done|].
    split; [split; [done|intros [? [=]]]|]. intros ? [=].
Qed.

End DeclaredServicesFacts.

(** [owner_element] refers to time function 2 of [example_domain], which
    is one before time 2 and zero from then on. *)
Example isActivated_before_switch_off :
  isActivated example_domain owner_element step_one = Returned true.
Proof. reflexivity. Qed.

Example isActivated_after_switch_off :
  isActivated example_domain owner_element
    {| ts_number := 3; ts_targetTime := 3%float |} = Returned false.
Proof. reflexivity. Qed.

Example isActivated_unknown_function :
  isActivated {| giveFunction := λ n, Failed (OofemError "undefined function") |}
    owner_element step_one
  = Failed (OofemError "undefined function").
Proof. reflexivity. Qed.

(** [owner_element] is inactive at time 3, active at time 1;
    [unswitched_element] is active whatever the domain holds. *)
Lemma isActivated_witness :
  isActivated example_domain owner_element step_three = Returned false
  ∧ isActivated example_domain owner_element step_one = Returned true
  ∧ isActivated example_domain unswitched_element step_three = Returned true.
Proof.
  split; [|split].
  - destruct (isActivated_false_iff_function_zero example_domain
                owner_element step_three) as (Hfalse & _).
    apply Hfalse. split; [done|]. eexists. split; reflexivity.
  - destruct (isActivated_false_iff_function_zero example_domain
                owner_element step_one) as (_ & Htrue & _).
    apply Htrue. right. eexists. split; reflexivity.
  - destruct (isActivated_false_iff_function_zero example_domain
                unswitched_element step_three) as (_ & _ & Hnone & _).
    apply Hnone. reflexivity.
Defined.

(** [whole_state_cs] provides quantity 1 (the weight) and nothing else. *)
Example giveIPValue_provided :
  giveIPValue whole_state_cs owner_element [7%float] (byte_point Byte.x0a)
    1 step_one = Returned ([1%float], 1).
Proof. reflexivity. Qed.

Example giveIPValue_not_provided :
  giveIPValue whole_state_cs owner_element [7%float] (byte_point Byte.x0a)
    2 step_one = Returned ([], 0).
Proof. reflexivity. Qed.

Lemma updateLocalNumbering_identity_witness :
  (∀ n kind, identity_renumbering n kind = n) ∧
  dofManArray (updateLocalNumbering identity_renumbering owner_element)
    = [4; 7; 9] ∧
  globalNumber (updateLocalNumbering identity_renumbering owner_element)
    = 17 ∧
  partitions (updateLocalNumbering identity_renumbering owner_element)
    = [0; 1].
Proof.
  assert (∀ n kind, identity_renumbering n kind = n) as Hid by reflexivity.
  split; [exact Hid|].
  destruct (updateLocalNumbering_identity identity_renumbering
              owner_element Hid) as (Hdofs & Hglobal & Hparts & _).
  rewrite Hdofs, Hglobal, Hparts. by repeat split.
Defined.

(** ** Partition synchronizer *)

Section PartitionSynchronizer.

Context {MaterialStatus : Type}.

Local Abbreviation GaussPoint := (GaussPoint MaterialStatus).
Local Abbreviation IntegrationRule := (IntegrationRule MaterialStatus).
Local Abbreviation ElementGeometry := (ElementGeometry MaterialStatus).
Local Abbreviation CrossSection := (CrossSection MaterialStatus).

Lemma pack_fold (cs : CrossSection) (tStep : TimeStep)
    (gps : list GaussPoint) (buff : CommunicationBuffer) :
  foldl (λ st gp, (st.1, st.2 ++ cs_packUnknowns st.1 tStep gp)) (cs, buff) gps
  = (cs, buff ++ concat (cs_packUnknowns cs tStep <$> gps)).
Proof.
  revert buff. induction gps as [|gp gps IH]; intros buff; csimpl.
  - by rewrite app_nil_r.
  - by rewrite IH, app_assoc.
Qed.

(** [packUnknowns] appends the collaborator's bytes for every point, in
    traversal order, to what the buffer holds. *)
Lemma packUnknowns_appends (cs : CrossSection) (e : ElementGeometry)
    (buff : CommunicationBuffer) (tStep : TimeStep) :
  rules_consistent e →
  packUnknowns cs e buff tStep = Returned (buff ++ packedBytes cs tStep e).
Proof.
  intros He. unfold packUnknowns, packedBytes.
  rewrite (ipEvaluator_val_fold _ _ _ _ He), pack_fold. done.
Qed.




(** Seen through the identity, the exchanged part is the whole state. *)
Lemma exchangedStates_id (e : ElementGeometry) :
  exchangedStates id e = pointStates e.
Proof.
  unfold exchangedStates.
  induction (pointStates e) as [|states rest IH]; csimpl; [done|].
  by rewrite list_fmap_id, IH.
Qed.

(** *** Round trip *)

Section RoundTrip.

Context {X : Type} (exchanged : MaterialStatus → X).
Context (cs : CrossSection) (tStep : TimeStep).
Hypothesis Hrestores : unpack_restores exchanged cs tStep.

Lemma unpackPoints_round_trip (sent : list GaussPoint) :
  ∀ (received : list GaussPoint) (rest : CommunicationBuffer),
    length sent = length received →
    ∃ received',
      unpackPoints cs tStep received
        (concat (cs_packUnknowns cs tStep <$> sent) ++ rest)
        = Returned (received', rest)
      ∧ length sent = length received'
      ∧ exchanged <$> (gp_materialStatus <$> received')
        = exchanged <$> (gp_materialStatus <$> sent).
Proof.
  induction sent as [|gp sent IH]; intros [|gp' received] rest Hlen;
    simplify_eq/=.
  - by exists [].
  - rewrite <- app_assoc.
    destruct (Hrestores gp gp'
                (concat (cs_packUnknowns cs tStep <$> sent) ++ rest))
      as (gp'' & -> & Hgp).
    destruct (IH received rest Hlen) as (received' & Hrec & Hlen' & Hst).
    simpl. rewrite Hrec. simpl.
    exists (gp'' :: received'). csimpl.
    split; [done|]. split; [by f_equal|]. by rewrite Hgp, Hst.
Qed.

Lemma unpackRules_round_trip (sent : list IntegrationRule) :
  ∀ (received : list IntegrationRule) (rest : CommunicationBuffer),
    Forall2 (λ r r', length (gaussPointArray r) = length (gaussPointArray r'))
            sent received →
    ∃ received',
      unpackRules cs tStep received
        (concat (cs_packUnknowns cs tStep
                   <$> concat (gaussPointArray <$> sent)) ++ rest)
        = Returned (received', rest)
      ∧ Forall2 (λ r r', length (gaussPointArray r) = length (gaussPointArray r'))
                sent received'
      ∧ (λ rule, exchanged <$> (gp_materialStatus <$> gaussPointArray rule))
          <$> received'
        = (λ rule, exchanged <$> (gp_materialStatus <$> gaussPointArray rule))
          <$> sent.
Proof.
  induction sent as [|rule sent IH]; intros received rest Hshape;
    inv Hshape.
  - by exists [].
  - match goal with
    | Hlen : length (gaussPointArray rule) = length (gaussPointArray ?r'),
      Htail : Forall2 _ sent ?rs |- _ =>
        rename r' into rule'; rename rs into received'
    end.
    csimpl. rewrite fmap_app, concat_app, <- app_assoc.
    destruct (unpackPoints_round_trip (gaussPointArray rule)
                (gaussPointArray rule')
                (concat (cs_packUnknowns cs tStep
                           <$> concat (gaussPointArray <$> sent)) ++ rest))
      as (gps' & -> & Hlen' & Hst); [done|].
    destruct (IH received' rest) as (rules' & Hrules & Hshape' & Hsts);
      [done|].
    simpl. rewrite Hrules. simpl.
    exists ({| gaussPointArray := gps' |} :: rules'). csimpl.
    split; [done|]. split; [by constructor|]. by rewrite Hst, Hsts.
Qed.

(** C2 (as amended).  After [packUnknowns] on the owner and
    [unpackAndUpdateUnknowns] of the bytes it wrote on a structurally
    identical mirror, the mirror's per-point state agrees with the owner's
    pre-pack state on the part of the state that the cross-section/material
    collaborator exchanges, provided the collaborator reads back what it
    packs; the unpack consumes exactly the bytes the pack wrote and the
    mirror keeps its structure. *)
Theorem pack_unpack_reproduces_exchanged_state (owner mirror : ElementGeometry) :
  rules_consistent owner →
  same_structure owner mirror →
  ∃ written : list Byte.byte,
    (∀ buff, packUnknowns cs owner buff tStep = Returned (buff ++ written))
    ∧ ∀ rest, ∃ mirror',
        unpackAndUpdateUnknowns cs mirror (written ++ rest) tStep
          = Returned (mirror', rest)
        ∧ same_structure owner mirror'
        ∧ exchangedStates exchanged mirror' = exchangedStates exchanged owner.
Proof.
  intros Howner [Hcount Hshape].
  exists (packedBytes cs tStep owner). split.
  - intros buff. by apply packUnknowns_appends.
  - intros rest. unfold unpackAndUpdateUnknowns, packedBytes, integrationPoints.
    destruct (unpackRules_round_trip (integrationRulesArray owner)
                (integrationRulesArray mirror) rest Hshape)
      as (rules' & -> & Hshape' & Hstates).
    simpl. eexists. split; [done|]. split.
    + split; [done|]. simpl. done.
    + unfold exchangedStates, pointStates. simpl.
      rewrite <- !list_fmap_compose. exact Hstates.
Qed.

End RoundTrip.

End PartitionSynchronizer.



(** The whole state of each point travels with [whole_state_cs]. *)
Lemma pack_unpack_whole_state_witness :
  rules_consistent owner_element ∧
  same_structure owner_element mirror_element ∧
  unpack_restores id whole_state_cs step_one ∧
  ∃ sent mirror',
    packUnknowns whole_state_cs owner_element [] step_one = Returned sent
    ∧ unpackAndUpdateUnknowns whole_state_cs mirror_element sent step_one
      = Returned (mirror', [])
    ∧ pointStates mirror' = [[Byte.x0a; Byte.x0b]; [Byte.x0c]].
Proof.
  assert (rules_consistent owner_element) as He by reflexivity.
  assert (same_structure owner_element mirror_element) as Hshape.
  { split; [reflexivity|]. repeat constructor. }
  assert (unpack_restores id whole_state_cs step_one) as Hcs.
  { intros gp gp' rest. eexists. split; reflexivity. }
  split; [exact He|]. split; [exact Hshape|]. split; [exact Hcs|].
  destruct (pack_unpack_reproduces_exchanged_state id whole_state_cs
              step_one Hcs owner_element mirror_element He Hshape)
    as (written & Hpack & Hunpack).
  destruct (Hunpack []) as (mirror' & Hmirror & _ & Hstates).
  exists written, mirror'.
  rewrite app_nil_r in Hmirror.
  split; [exact (Hpack [])|]. split; [exact Hmirror|].
  rewrite !exchangedStates_id in Hstates.
  rewrite Hstates. reflexivity.
Defined.

(** C2 as stated fails for a material of local response: nothing is
    exchanged, and the mirror keeps the state it had. *)
Lemma pack_unpack_local_response_counterexample :
  ¬ (∀ (cs : CrossSection Byte.byte)
       (owner mirror mirror' : ElementGeometry Byte.byte)
       (tStep : TimeStep) (buff sent rest : CommunicationBuffer),
       rules_consistent owner →
       same_structure owner mirror →
       packUnknowns cs owner buff tStep = Returned sent →
       unpackAndUpdateUnknowns cs mirror sent tStep = Returned (mirror', rest) →
       pointStates mirror' = pointStates owner).
Proof.
  intros Hlaw.
  specialize (Hlaw local_response_cs owner_element mirror_element
                mirror_element step_one [] [] []).
  discriminate Hlaw; try reflexivity.
  split; [reflexivity|]. repeat constructor.
Qed.

(** * Further properties *)

(** ** Counted loops on arrays of any extent *)

Section LoopsBeyond.

Context {A S : Type}.

(** A counted loop over an array either stays inside it and folds over the
    elements it reaches, or leaves it at the first index past its end. *)
Lemma for_upto_array_cases (arr : list A) (body : Z → S → Result S)
    (step : S → A → S) :
  (∀ i a s, arr !! i = Some a → body (Z.of_nat i) s = Returned (step s a)) →
  (∀ i s, arr !! i = None →
          body (Z.of_nat i) s = Failed (OutOfBounds (Z.of_nat i))) →
  ∀ count i s, (i ≤ length arr)%nat →
    for_upto count (Z.of_nat i) body s
    = if decide (i + count ≤ length arr)%nat
      then Returned (foldl step s (take count (drop i arr)))
      else Failed (OutOfBounds (Z.of_nat (length arr))).
Proof.
  intros Hin Hout count.
  induction count as [|count IH]; intros i s Hi.
  - simpl. destruct (decide (i + 0 ≤ length arr)%nat); [done|lia].
  - destruct (decide (i < length arr)%nat) as [Hlt|Hge].
    + destruct (lookup_lt_is_Some_2 arr i Hlt) as [a Ha].
      simpl. rewrite (Hin _ _ _ Ha). simpl.
      replace (Z.of_nat i + 1) with (Z.of_nat (Datatypes.S i)) by lia.
      rewrite IH by lia. rewrite (drop_S _ _ _ Ha). simpl.
      repeat case_decide; first [done | lia].
    + assert (i = length arr) as -> by lia.
      simpl. rewrite Hout by (apply lookup_ge_None; lia). simpl.
      case_decide; [lia|done].
Qed.

Lemma array_at_beyond (arr : list A) (i : nat) :
  arr !! i = None → array_at arr (Z.of_nat i) = Failed (OutOfBounds (Z.of_nat i)).
Proof.
  intros Hi. unfold array_at.
  destruct (decide (0 ≤ Z.of_nat i)); [|done].
  by rewrite Nat2Z.id, Hi.
Qed.

Lemma array_at_cases (arr : list A) (i : Z) :
  (0 ≤ i < Z.of_nat (length arr) →
   ∃ a, array_at arr i = Returned a ∧ arr !! Z.to_nat i = Some a)
  ∧ (¬ (0 ≤ i < Z.of_nat (length arr)) →
     array_at arr i = Failed (OutOfBounds i)).
Proof.
  unfold array_at. split.
  - intros Hi. destruct (decide (0 ≤ i)); [|lia].
    destruct (lookup_lt_is_Some_2 arr (Z.to_nat i)) as [a Ha]; [lia|].
    exists a. by rewrite Ha.
  - intros Hi. destruct (decide (0 ≤ i)); [|done].
    rewrite (proj2 (lookup_ge_None arr (Z.to_nat i))); [done|lia].
Qed.

End LoopsBeyond.

(** ** The traversal on any element *)

Section TraversalBeyond.

Context {MaterialStatus : Type}.

Local Abbreviation GaussPoint := (GaussPoint MaterialStatus).
Local Abbreviation IntegrationRule := (IntegrationRule MaterialStatus).
Local Abbreviation ElementGeometry := (ElementGeometry MaterialStatus).

Lemma rules_loop_cases {T : Type} (rules : list IntegrationRule) (n : Z)
    (f : GaussPoint → T → T) (src : T) :
  for_loop n (λ ir src,
    rule ← array_at rules ir;
    let nip := giveNumberOfIntegrationPoints rule in
    for_loop nip (λ ip src,
      rule ← array_at rules ir;
      gp ← getIntegrationPoint rule ip;
      Returned (f gp src)) src) src
  = if decide (n ≤ Z.of_nat (length rules))
    then Returned (foldl (λ src gp, f gp src) src
                     (concat (gaussPointArray <$> take (Z.to_nat n) rules)))
    else Failed (OutOfBounds (Z.of_nat (length rules))).
Proof.
  unfold for_loop at 1.
  rewrite (for_upto_array_cases rules _
             (λ src rule, foldl (λ src gp, f gp src) src (gaussPointArray rule))
             ) with (i := 0%nat); [| | |lia].
  - rewrite drop_0, <- foldl_concat, foldl_fmap.
    repeat case_decide; first [done | lia].
  - intros ir rule s Hrule.
    rewrite <- (points_loop rules ir rule f s Hrule).
    by rewrite (array_at_lookup _ _ _ Hrule).
  - intros ir s Hrule. by rewrite (array_at_beyond _ _ Hrule).
Qed.

Lemma ipEvaluator_cases {T : Type} (e : ElementGeometry)
    (f : GaussPoint → T → T) (src : T) :
  ipEvaluator e f src
  = if decide (numberOfIntegrationRules e
               ≤ Z.of_nat (length (integrationRulesArray e)))
    then Returned (foldl (λ src gp, f gp src) src (countedPoints e))
    else Failed (OutOfBounds (Z.of_nat (length (integrationRulesArray e)))).
Proof. apply rules_loop_cases. Qed.

Lemma ipEvaluator_val_cases {T S : Type} (e : ElementGeometry)
    (f : GaussPoint → T * S → T * S) (src : T) (_val : S) :
  ipEvaluator_val e f src _val
  = if decide (numberOfIntegrationRules e
               ≤ Z.of_nat (length (integrationRulesArray e)))
    then Returned (foldl (λ st gp, f gp st) (src, _val) (countedPoints e))
    else Failed (OutOfBounds (Z.of_nat (length (integrationRulesArray e)))).
Proof. apply rules_loop_cases. Qed.

Lemma countedPoints_consistent (e : ElementGeometry) :
  rules_consistent e → countedPoints e = integrationPoints e.
Proof.
  intros He. unfold countedPoints, integrationPoints.
  rewrite He, Nat2Z.id. by rewrite firstn_all.
Qed.

(** X1.  Whenever the rule count does not exceed the extent of the rule
    array, both overloads of [ipEvaluator] apply the operation to the points
    of the first [numberOfIntegrationRules] rules, in order, and to no other
    point: the rules the array holds beyond the count are not visited. *)
Theorem ipEvaluator_visits_counted_rules {T S : Type} (e : ElementGeometry)
    (f : GaussPoint → T → T) (g : GaussPoint → T * S → T * S)
    (src : T) (_val : S) :
  numberOfIntegrationRules e ≤ Z.of_nat (length (integrationRulesArray e)) →
  ipEvaluator e f src
    = Returned (foldl (λ src gp, f gp src) src (countedPoints e))
  ∧ ipEvaluator_val e g src _val
    = Returned (foldl (λ st gp, g gp st) (src, _val) (countedPoints e))
  ∧ integrationPoints e
    = countedPoints e
      ++ concat (gaussPointArray
                   <$> drop (Z.to_nat (numberOfIntegrationRules e))
                            (integrationRulesArray e)).
Proof.
  intros Hn. rewrite ipEvaluator_cases, ipEvaluator_val_cases.
  case_decide; [|lia]. split; [done|]. split; [done|].
  unfold integrationPoints, countedPoints.
  by rewrite <- concat_app, <- fmap_app, take_drop.
Qed.

(** X2.  Either overload of [ipEvaluator] reads outside
    [integrationRulesArray] if and only if [numberOfIntegrationRules]
    exceeds the extent of the array, and the read is then at the first index
    past the end of the array. *)
Theorem ipEvaluator_fails_iff_count_exceeds_array {T S : Type}
    (e : ElementGeometry) (f : GaussPoint → T → T)
    (g : GaussPoint → T * S → T * S) (src : T) (_val : S) :
  ((∃ why, ipEvaluator e f src = Failed why) ↔
     Z.of_nat (length (integrationRulesArray e)) < numberOfIntegrationRules e)
  ∧ ((∃ why, ipEvaluator_val e g src _val = Failed why) ↔
     Z.of_nat (length (integrationRulesArray e)) < numberOfIntegrationRules e)
  ∧ (∀ why, ipEvaluator e f src = Failed why
            ∨ ipEvaluator_val e g src _val = Failed why →
            why = OutOfBounds (Z.of_nat (length (integrationRulesArray e)))).
Proof.
  rewrite ipEvaluator_cases, ipEvaluator_val_cases.
  case_decide as Hn.
  - split; [|split].
    + split; [intros [why [=]]|lia].
    + split; [intros [why [=]]|lia].
    + intros why [[=]|[=]].
  - split; [|split].
    + split; [lia|]. intros _. by eexists.
    + split; [lia|]. intros _. by eexists.
    + intros why [[= <-]|[= <-]]; done.
Qed.

(** X3.  With a count of zero or less, or when no counted rule holds a
    point, [ipEvaluator] never applies the operation: the object and the
    accumulator come back as they were. *)
Theorem ipEvaluator_without_points {T S : Type} (e : ElementGeometry)
    (f : GaussPoint → T → T) (g : GaussPoint → T * S → T * S)
    (src : T) (_val : S) :
  numberOfIntegrationRules e ≤ 0
  ∨ (numberOfIntegrationRules e ≤ Z.of_nat (length (integrationRulesArray e))
     ∧ Forall (λ rule, giveNumberOfIntegrationPoints rule = 0)
              (integrationRulesArray e)) →
  ipEvaluator e f src = Returned src
  ∧ ipEvaluator_val e g src _val = Returned (src, _val).
Proof.
  intros Hcase.
  assert (numberOfIntegrationRules e
          ≤ Z.of_nat (length (integrationRulesArray e))
          ∧ countedPoints e = []) as [Hn Hnone].
  { destruct Hcase as [Hn|[Hn Hall]].
    - split; [lia|]. unfold countedPoints.
      by replace (Z.to_nat (numberOfIntegrationRules e)) with 0%nat by lia.
    - split; [done|]. clear Hn. unfold countedPoints.
      generalize (Z.to_nat (numberOfIntegrationRules e)).
      induction Hall as [|rule rules Hrule _ IH]; intros [|k]; csimpl;
        try done.
      rewrite IH, app_nil_r. unfold giveNumberOfIntegrationPoints in Hrule.
      destruct (gaussPointArray rule); [done|simpl in Hrule; lia]. }
  rewrite ipEvaluator_cases, ipEvaluator_val_cases, Hnone.
  case_decide; [done|lia].
Qed.

Lemma foldl_beside_accumulator {T S : Type} (f : GaussPoint → T → T)
    (h : GaussPoint → S → S) (gps : list GaussPoint) (src : T) (_val : S) :
  foldl (λ st gp, (f gp st.1, h gp st.2)) (src, _val) gps
  = (foldl (λ src gp, f gp src) src gps, foldl (λ v gp, h gp v) _val gps).
Proof.
  revert src _val. induction gps as [|gp gps IH]; intros src _val; simpl;
    [done|]. by rewrite IH.
Qed.

(** X4.  The accumulator overload, given an operation that works on the
    object and leaves the accumulator alone, does what the plain overload
    does: it fails where the plain overload fails and otherwise returns
    the plain overload's result beside the untouched accumulator. *)
Theorem ipEvaluator_val_leaving_accumulator {T S : Type}
    (e : ElementGeometry) (f : GaussPoint → T → T) (src : T) (_val : S) :
  ipEvaluator_val e (λ gp st, (f gp st.1, st.2)) src _val
  = match ipEvaluator e f src with
    | Returned src' => Returned (src', _val)
    | Failed why => Failed why
    end.
Proof.
  rewrite ipEvaluator_cases, ipEvaluator_val_cases.
  case_decide; [|done].
  rewrite (foldl_beside_accumulator f (λ _ v, v)). f_equal. f_equal.
  induction (countedPoints e) as [|gp gps IH]; simpl; done.
Qed.

Lemma length_points_sum (rules : list IntegrationRule) :
  Z.of_nat (length (concat (gaussPointArray <$> rules)))
  = foldr (λ rule total, giveNumberOfIntegrationPoints rule + total) 0 rules.
Proof.
  induction rules as [|rule rules IH]; csimpl; [done|].
  rewrite length_app. unfold giveNumberOfIntegrationPoints at 1. lia.
Qed.

(** X5.  On an element whose rule count is the extent of its rule array,
    the operation is applied exactly as many times as the rules hold points
    together: a counter kept in the accumulator beside any operation ends at
    the sum of [giveNumberOfIntegrationPoints] over the rules, which is
    also the number of positions visited. *)
Theorem ipEvaluator_applies_once_per_point {T : Type} (e : ElementGeometry)
    (f : GaussPoint → T → T) (src : T) :
  rules_consistent e →
  ipEvaluator_val e (λ gp st, (f gp st.1, st.2 + 1)) src 0
    = Returned
        (foldl (λ src gp, f gp src) src (integrationPoints e),
         foldr (λ rule total, giveNumberOfIntegrationPoints rule + total) 0
               (integrationRulesArray e))
  ∧ Z.of_nat (length (visitOrder e))
    = foldr (λ rule total, giveNumberOfIntegrationPoints rule + total) 0
            (integrationRulesArray e).
Proof.
  intros He. rewrite <- length_points_sum. split.
  - rewrite (ipEvaluator_val_fold _ _ _ _ He).
    rewrite (foldl_beside_accumulator f (λ _ v, v + 1)). do 2 f_equal.
    fold (integrationPoints e).
    assert (∀ (gps : list GaussPoint) k,
              foldl (λ v _, v + 1) k gps = k + Z.of_nat (length gps)) as Hcount.
    { induction gps as [|gp gps IH]; intros k; simpl; [lia|].
      rewrite IH. lia. }
    by rewrite Hcount.
  - f_equal. unfold visitOrder. rewrite He.
    exact (Forall2_length _ _ _
             (points_at_positions [] (integrationRulesArray e))).
Qed.

(** X6.  The traversal splits at a rule boundary: traversing an element
    whose rule array is the rules of a first element followed by those of a
    second is traversing the first and then, from the object so obtained,
    the second. *)
Theorem ipEvaluator_splits_at_rule_boundary {T : Type}
    (e e1 e2 : ElementGeometry) (f : GaussPoint → T → T) (src : T) :
  rules_consistent e → rules_consistent e1 → rules_consistent e2 →
  integrationRulesArray e = integrationRulesArray e1 ++ integrationRulesArray e2 →
  ipEvaluator e f src = (src' ← ipEvaluator e1 f src; ipEvaluator e2 f src').
Proof.
  intros He He1 He2 Hrules.
  rewrite !ipEvaluator_fold by done. simpl.
  rewrite ipEvaluator_fold by done.
  unfold integrationPoints. by rewrite Hrules, fmap_app, concat_app, foldl_app.
Qed.

Lemma points_without_empty_rules (rules : list IntegrationRule) :
  concat (gaussPointArray
            <$> filter (λ rule, 0 < giveNumberOfIntegrationPoints rule) rules)
  = concat (gaussPointArray <$> rules).
Proof.
  induction rules as [|rule rules IH]; [done|].
  rewrite filter_cons. case_decide as Hrule; csimpl; rewrite IH; [done|].
  unfold giveNumberOfIntegrationPoints in Hrule.
  destruct (gaussPointArray rule); [done|simpl in Hrule; lia].
Qed.

(** X7.  Rules without points do not show in the traversal: on an element
    whose rule count is the extent of its rule array, removing the
    point-less rules (and counting the rest) changes neither the points
    visited nor the result of [ipEvaluator]. *)
Theorem ipEvaluator_skips_empty_rules {T : Type} (e : ElementGeometry)
    (f : GaussPoint → T → T) (src : T) :
  rules_consistent e →
  rules_consistent (withoutEmptyRules e)
  ∧ integrationPoints (withoutEmptyRules e) = integrationPoints e
  ∧ ipEvaluator (withoutEmptyRules e) f src = ipEvaluator e f src.
Proof.
  intros He.
  assert (rules_consistent (withoutEmptyRules e)) as He' by done.
  assert (integrationPoints (withoutEmptyRules e) = integrationPoints e)
    as Hpoints by apply points_without_empty_rules.
  split; [done|]. split; [done|].
  by rewrite !ipEvaluator_fold, Hpoints.
Qed.

End TraversalBeyond.

(** The count of [owner_element] lowered to one rule: the point of the
    second rule is not visited. *)
Lemma ipEvaluator_visits_counted_rules_witness :
  numberOfIntegrationRules (with_rule_count 1 owner_element)
    ≤ Z.of_nat (length (integrationRulesArray (with_rule_count 1 owner_element)))
  ∧ ipEvaluator (with_rule_count 1 owner_element) log_state []
    = Returned [Byte.x0a; Byte.x0b].
Proof.
  assert (numberOfIntegrationRules (with_rule_count 1 owner_element)
          ≤ Z.of_nat (length (integrationRulesArray
                                (with_rule_count 1 owner_element)))) as Hn
    by (simpl; lia).
  split; [exact Hn|].
  rewrite (proj1 (ipEvaluator_visits_counted_rules (S := unit)
                    (with_rule_count 1 owner_element) log_state
                    (λ gp st, st) [] () Hn)).
  reflexivity.
Defined.

(** A negative count. *)
Lemma ipEvaluator_without_points_witness :
  numberOfIntegrationRules (with_rule_count (-2) owner_element) ≤ 0
  ∧ ipEvaluator (with_rule_count (-2) owner_element) log_state [Byte.x01]
    = Returned [Byte.x01].
Proof.
  assert (numberOfIntegrationRules (with_rule_count (-2) owner_element) ≤ 0)
    as Hn by (simpl; lia).
  split; [exact Hn|].
  exact (proj1 (ipEvaluator_without_points (S := unit)
                  (with_rule_count (-2) owner_element) log_state
                  (λ gp st, st) [Byte.x01] () (or_introl Hn))).
Defined.

Lemma ipEvaluator_applies_once_per_point_witness :
  rules_consistent owner_element
  ∧ ipEvaluator_val owner_element
      (λ gp st, (log_state gp st.1, st.2 + 1)) [] 0
    = Returned ([Byte.x0a; Byte.x0b; Byte.x0c], 3).
Proof.
  assert (rules_consistent owner_element) as He by reflexivity.
  split; [exact He|].
  rewrite (proj1 (ipEvaluator_applies_once_per_point owner_element
                    log_state [] He)).
  reflexivity.
Defined.

Lemma ipEvaluator_splits_witness :
  rules_consistent owner_element
  ∧ rules_consistent (byte_element [[Byte.x0a; Byte.x0b]])
  ∧ rules_consistent (byte_element [[Byte.x0c]])
  ∧ ipEvaluator owner_element log_state []
    = (log ← ipEvaluator (byte_element [[Byte.x0a; Byte.x0b]]) log_state [];
       ipEvaluator (byte_element [[Byte.x0c]]) log_state log).
Proof.
  assert (rules_consistent owner_element) as He by reflexivity.
  assert (rules_consistent (byte_element [[Byte.x0a; Byte.x0b]])) as He1
    by reflexivity.
  assert (rules_consistent (byte_element [[Byte.x0c]])) as He2 by reflexivity.
  split; [exact He|]. split; [exact He1|]. split; [exact He2|].
  exact (ipEvaluator_splits_at_rule_boundary owner_element
           (byte_element [[Byte.x0a; Byte.x0b]]) (byte_element [[Byte.x0c]])
           log_state [] He He1 He2 eq_refl).
Defined.

(** [sparse_element] has a point-less rule between two others. *)
Lemma ipEvaluator_skips_empty_rules_witness :
  rules_consistent sparse_element
  ∧ numberOfIntegrationRules (withoutEmptyRules sparse_element) = 2
  ∧ ipEvaluator (withoutEmptyRules sparse_element) log_state []
    = ipEvaluator sparse_element log_state [].
Proof.
  assert (rules_consistent sparse_element) as He by reflexivity.
  split; [exact He|]. split; [reflexivity|].
  exact (proj2 (proj2 (ipEvaluator_skips_empty_rules sparse_element
                         log_state [] He))).
Defined.

(** ** Access to rules *)

Section AccessFacts.

Context {MaterialStatus : Type}.

Local Abbreviation GaussPoint := (GaussPoint MaterialStatus).
Local Abbreviation IntegrationRule := (IntegrationRule MaterialStatus).
Local Abbreviation ElementGeometry := (ElementGeometry MaterialStatus).
Local Abbreviation ElementClass := (ElementClass MaterialStatus).

(** X8.  On an element whose rule count is the extent of its rule array,
    [giveIntegrationRule(i)] returns a rule, the one stored at index [i],
    exactly for [0 <= i < giveNumberOfIntegrationRules()]; for every other
    index it reads outside the array.  The method itself checks nothing. *)
Theorem giveIntegrationRule_in_bounds_iff (e : ElementGeometry) (i : Z) :
  rules_consistent e →
  ((∃ rule, giveIntegrationRule e i = Returned rule) ↔
     0 ≤ i < giveNumberOfIntegrationRules e)
  ∧ (0 ≤ i < giveNumberOfIntegrationRules e →
     ∃ rule, giveIntegrationRule e i = Returned rule
             ∧ integrationRulesArray e !! Z.to_nat i = Some rule)
  ∧ (¬ (0 ≤ i < giveNumberOfIntegrationRules e) →
     giveIntegrationRule e i = Failed (OutOfBounds i)).
Proof.
  intros He. unfold giveIntegrationRule, giveNumberOfIntegrationRules.
  rewrite He.
  destruct (array_at_cases (integrationRulesArray e) i) as [Hin Hout].
  split; [split|split].
  - intros [rule Hrule].
    destruct (decide (0 ≤ i < Z.of_nat (length (integrationRulesArray e))))
      as [|Hi]; [done|].
    rewrite (Hout Hi) in Hrule. done.
  - intros Hi. destruct (Hin Hi) as (rule & Hrule & _). by exists rule.
  - exact Hin.
  - exact Hout.
Qed.

(** X9.  For a receiver of any class, [giveDefaultIntegrationRulePtr]
    reads outside [integrationRulesArray] if and only if the rule count is
    nonzero and the index given by [giveDefaultIntegrationRule()] is not an
    index of the array; with a nonzero count it is
    [giveIntegrationRule(giveDefaultIntegrationRule())], and only the count
    being zero is guarded. *)
Theorem giveDefaultIntegrationRulePtr_fails_iff (C : ElementClass)
    (e : ElementGeometry) :
  ((∃ why, @giveDefaultIntegrationRulePtr _ C e = Failed why) ↔
     giveNumberOfIntegrationRules e ≠ 0
     ∧ ¬ (0 ≤ @giveDefaultIntegrationRule _ C e
          < Z.of_nat (length (integrationRulesArray e))))
  ∧ (∀ why, @giveDefaultIntegrationRulePtr _ C e = Failed why →
            why = OutOfBounds (@giveDefaultIntegrationRule _ C e))
  ∧ (giveNumberOfIntegrationRules e ≠ 0 →
     @giveDefaultIntegrationRulePtr _ C e
     = (rule ← giveIntegrationRule e (@giveDefaultIntegrationRule _ C e);
        Returned (Some rule))).
Proof.
  unfold giveDefaultIntegrationRulePtr, giveIntegrationRule.
  destruct (array_at_cases (integrationRulesArray e)
              (@giveDefaultIntegrationRule _ C e)) as [Hin Hout].
  case_decide as Hn.
  - split; [|split]; [|intros why [=]|done].
    split; [intros [why [=]]|intros [? _]; done].
  - destruct (decide (0 ≤ @giveDefaultIntegrationRule _ C e
                      < Z.of_nat (length (integrationRulesArray e))))
      as [Hi|Hi].
    + destruct (Hin Hi) as (rule & -> & _). simpl.
      split; [|split]; [|intros why [=]|done].
      split; [intros [why [=]]|intros [_ ?]; done].
    + rewrite (Hout Hi). simpl.
      split; [|split]; [|by intros why [= <-]|done].
      split; [done|]. intros _. by eexists.
Qed.


End AccessFacts.

Lemma giveIntegrationRule_in_bounds_witness :
  rules_consistent owner_element
  ∧ giveIntegrationRule owner_element 1
    = Returned {| gaussPointArray := [byte_point Byte.x0c] |}
  ∧ giveIntegrationRule owner_element 2 = Failed (OutOfBounds 2)
  ∧ giveIntegrationRule owner_element (-1) = Failed (OutOfBounds (-1)).
Proof.
  assert (rules_consistent owner_element) as He by reflexivity.
  split; [exact He|]. split; [reflexivity|].
  split.
  - apply (giveIntegrationRule_in_bounds_iff owner_element 2 He). simpl. lia.
  - apply (giveIntegrationRule_in_bounds_iff owner_element (-1) He). lia.
Defined.

